(** * Freestanding runtime stubs of svd2odin ([runtime/stubs.c])

    The translation unit defines two symbols for a bare-metal ARM target:

    - [void abort(void)], whose body is the single statement [while(1);];
    - [void *__aeabi_read_tp(void)], whose body is [return (void* )0;].

    The development has two layers.  The first is a shallow embedding: a
    step function for [abort] and a state-passing function for
    [__aeabi_read_tp], over a machine state made of a memory and the trace
    of observable events.  The second is the source text itself, as a
    small abstract syntax with a small-step evaluator, used for the
    properties that speak about what the file declares and which constructs
    it contains.  The two layers are related by simulation lemmas. *)

From stdpp Require Import base option list strings gmap relations.
From Stdlib Require Import ZArith.

Local Open Scope Z_scope.

(** ** Machine state *)

(** Observable events of the C abstract machine: calls to functions defined
    outside the translation unit, accesses to volatile objects and volatile
    inline assembly. *)
Inductive event : Type :=
  | Ev_call (f : string)
  | Ev_vload (addr val : Z)
  | Ev_vstore (addr val : Z)
  | Ev_asm (text : string).

(** Memory maps the addresses that are mapped to the value stored there;
    [trace] grows at its end. *)
Record state : Type := mkState {
  mem : gmap Z Z;
  trace : list event
}.

Definition emit (ev : event) (s : state) : state :=
  {| mem := mem s; trace := trace s ++ [ev] |}.

Definition set_mem (m : gmap Z Z) (s : state) : state :=
  {| mem := m; trace := trace s |}.

(** Pointers of the target are 32 bits wide (the [__aeabi_] symbols belong
    to the run-time ABI of 32-bit ARM). *)
Definition ptr_bits : Z := 32.

Definition ptr_wrap (n : Z) : Z := n mod 2 ^ ptr_bits.

Inductive val : Type :=
  | Vint (n : Z)
  | Vptr (a : Z).

(** The value of [(void* )0]. *)
Definition NULL : val := Vptr (ptr_wrap 0).

(** ** Shallow embedding of [abort] *)

(** Control points of [abort]: about to evaluate the controlling expression
    of the loop, about to execute its body (the empty statement), and past
    the loop, where the function would return to its caller. *)
Inductive abort_pc : Type :=
  | AtTest
  | AtBody
  | Returned.

Definition in_loop (pc : abort_pc) : bool :=
  match pc with
  | AtTest | AtBody => true
  | Returned => false
  end.

(** One step of [while(1);]: the controlling expression is the constant [1],
    compared against zero; the body is [;]. *)
Definition abort_step (c : abort_pc * state) : option (abort_pc * state) :=
  let '(pc, s) := c in
  match pc with
  | AtTest => if 1 =? 0 then Some (Returned, s) else Some (AtBody, s)
  | AtBody => Some (AtTest, s)
  | Returned => None
  end.

Definition abort_R (c c' : abort_pc * state) : Prop := abort_step c = Some c'.

Definition abort_entry (s : state) : abort_pc * state := (AtTest, s).

(** [n] steps of [abort]; [None] when a step is asked of a configuration
    that has none. *)
Fixpoint abort_steps (n : nat) (c : abort_pc * state) : option (abort_pc * state) :=
  match n with
  | O => Some c
  | S n' =>
      match abort_step c with
      | Some c' => abort_steps n' c'
      | None => None
      end
  end.

(** [abort] with a bound on the number of steps: [Some s] when control gets
    back to the caller in state [s] within [fuel] steps, [None] when it does
    not. *)
Fixpoint abort_run (fuel : nat) (c : abort_pc * state) : option state :=
  match c.1 with
  | Returned => Some c.2
  | _ =>
      match fuel with
      | O => None
      | S fuel' =>
          match abort_step c with
          | Some c' => abort_run fuel' c'
          | None => None
          end
      end
  end.

Definition abort (fuel : nat) (s : state) : option state :=
  abort_run fuel (abort_entry s).

(** ** Shallow embedding of [__aeabi_read_tp] *)

(** Conversion of an integer to a pointer, as the cast [(void* )n] does. *)
Definition int_to_ptr (n : Z) : val := Vptr (ptr_wrap n).

(** [return (void* )0;]: the result and the state after the call. *)
Definition __aeabi_read_tp (s : state) : val * state := (int_to_ptr 0, s).

(** Two calls in sequence, the second from the state the first one leaves. *)
Definition read_tp_twice (s : state) : val * val * state :=
  let '(p1, s1) := __aeabi_read_tp s in
  let '(p2, s2) := __aeabi_read_tp s1 in
  (p1, p2, s2).

(** ** The source text *)

Inductive ctype : Type :=
  | Tvoid
  | Tint
  | Tptr (t : ctype).

Inductive binop : Type :=
  | Oadd
  | Osub
  | Omul
  | Odiv.

Inductive expr : Type :=
  | Econst (n : Z)
  | Ecast (t : ctype) (e : expr)
  | Ederef (vol : bool) (e : expr)
  | Ebinop (op : binop) (e1 e2 : expr).

Inductive stmt : Type :=
  | Sskip
  | Sseq (s1 s2 : stmt)
  | Swhile (c : expr) (b : stmt)
  | Sreturn (e : option expr)
  | Scall (f : string)
  | Sstore (vol : bool) (a v : expr)
  | Sasm (vol : bool) (text : string).

Inductive linkage : Type :=
  | External
  | Internal.

#[global] Instance linkage_eq_dec : EqDecision linkage.
Proof. solve_decision. Defined.

Record fundef : Type := mkFundef {
  fn_name : string;
  fn_linkage : linkage;
  fn_attrs : list string;
  fn_return : ctype;
  fn_params : list (ctype * string);
  fn_body : stmt
}.

Record translation_unit : Type := mkUnit {
  tu_globals : list (ctype * string);
  tu_functions : list fundef
}.

(** [void abort(void) { while(1); }] *)
Definition abort_def : fundef :=
  {| fn_name := "abort";
     fn_linkage := External;
     fn_attrs := [];
     fn_return := Tvoid;
     fn_params := [];
     fn_body := Swhile (Econst 1) Sskip |}.

(** [void *__aeabi_read_tp(void) { return (void* )0; }] *)
Definition read_tp_def : fundef :=
  {| fn_name := "__aeabi_read_tp";
     fn_linkage := External;
     fn_attrs := [];
     fn_return := Tptr Tvoid;
     fn_params := [];
     fn_body := Sreturn (Some (Ecast (Tptr Tvoid) (Econst 0))) |}.

Definition stubs_c : translation_unit :=
  {| tu_globals := [];
     tu_functions := [abort_def; read_tp_def] |}.

(** The helpers that the closing comment of the file places in
    [interrupt_helpers.s]. *)
Definition interrupt_helpers : list string :=
  ["disable_interrupts"; "enable_interrupts"; "wait_for_interrupt"].

(** Symbols with external linkage that the unit defines. *)
Definition exported (tu : translation_unit) : list fundef :=
  filter (fun f => fn_linkage f = External) (tu_functions tu).

(** *** Evaluation *)

Definition int_ok (n : Z) : bool := (- 2 ^ 31 <=? n) && (n <? 2 ^ 31).

Definition int_wrap (n : Z) : Z := (n + 2 ^ 31) mod 2 ^ 32 - 2 ^ 31.

Definition checked (n : Z) : option Z := if int_ok n then Some n else None.

(** Signed arithmetic; [None] where C leaves the result undefined. *)
Definition eval_binop (op : binop) (n1 n2 : Z) : option Z :=
  match op with
  | Oadd => checked (n1 + n2)
  | Osub => checked (n1 - n2)
  | Omul => checked (n1 * n2)
  | Odiv => if n2 =? 0 then None else checked (n1 ÷ n2)
  end.

Definition cast_val (t : ctype) (v : val) : option val :=
  match t, v with
  | Tvoid, _ => None
  | Tint, Vint n => Some (Vint n)
  | Tint, Vptr a => Some (Vint (int_wrap a))
  | Tptr _, Vint n => Some (int_to_ptr n)
  | Tptr _, Vptr a => Some (Vptr a)
  end.

Definition is_true (v : val) : bool :=
  match v with
  | Vint n => negb (n =? 0)
  | Vptr a => negb (a =? 0)
  end.

(** Value and state after evaluating an expression; [None] is a fault. *)
Fixpoint eval_expr (e : expr) (s : state) : option (val * state) :=
  match e with
  | Econst n => Some (Vint n, s)
  | Ecast t e1 =>
      match eval_expr e1 s with
      | Some (v, s1) =>
          match cast_val t v with
          | Some v' => Some (v', s1)
          | None => None
          end
      | None => None
      end
  | Ederef vol e1 =>
      match eval_expr e1 s with
      | Some (Vptr a, s1) =>
          match mem s1 !! a with
          | Some b => Some (Vint b, if vol then emit (Ev_vload a b) s1 else s1)
          | None => None
          end
      | _ => None
      end
  | Ebinop op e1 e2 =>
      match eval_expr e1 s with
      | Some (Vint n1, s1) =>
          match eval_expr e2 s1 with
          | Some (Vint n2, s2) =>
              match eval_binop op n1 n2 with
              | Some n => Some (Vint n, s2)
              | None => None
              end
          | _ => None
          end
      | _ => None
      end
  end.

Inductive cont : Type :=
  | Kstop
  | Kseq (s : stmt) (k : cont)
  | Kwhile (c : expr) (b : stmt) (k : cont).

(** A configuration either runs a statement under a continuation or has
    returned to the caller, with the returned value if there is one. *)
Inductive config : Type :=
  | Run (s : stmt) (k : cont) (st : state)
  | Ret (v : option val) (st : state).

Inductive outcome : Type :=
  | Next (c : config)
  | Final
  | Fault.

Definition store (vol : bool) (a b : Z) (s : state) : option state :=
  match mem s !! a with
  | Some _ =>
      let s' := set_mem (<[a := b]> (mem s)) s in
      Some (if vol then emit (Ev_vstore a b) s' else s')
  | None => None
  end.

Definition step (c : config) : outcome :=
  match c with
  | Ret _ _ => Final
  | Run Sskip Kstop st => Next (Ret None st)
  | Run Sskip (Kseq s2 k) st => Next (Run s2 k st)
  | Run Sskip (Kwhile c b k) st => Next (Run (Swhile c b) k st)
  | Run (Sseq s1 s2) k st => Next (Run s1 (Kseq s2 k) st)
  | Run (Swhile c b) k st =>
      match eval_expr c st with
      | Some (v, st') =>
          if is_true v then Next (Run b (Kwhile c b k) st')
          else Next (Run Sskip k st')
      | None => Fault
      end
  | Run (Sreturn None) k st => Next (Ret None st)
  | Run (Sreturn (Some e)) k st =>
      match eval_expr e st with
      | Some (v, st') => Next (Ret (Some v) st')
      | None => Fault
      end
  | Run (Scall f) k st => Next (Run Sskip k (emit (Ev_call f) st))
  | Run (Sstore vol ea ev) k st =>
      match eval_expr ea st with
      | Some (Vptr a, st1) =>
          match eval_expr ev st1 with
          | Some (Vint b, st2) =>
              match store vol a b st2 with
              | Some st3 => Next (Run Sskip k st3)
              | None => Fault
              end
          | _ => Fault
          end
      | _ => Fault
      end
  | Run (Sasm vol text) k st =>
      Next (Run Sskip k (if vol then emit (Ev_asm text) st else st))
  end.

Fixpoint steps (n : nat) (c : config) : outcome :=
  match n with
  | O => Next c
  | S n' =>
      match step c with
      | Next c' => steps n' c'
      | o => o
      end
  end.

Definition state_of (c : config) : state :=
  match c with
  | Run _ _ st => st
  | Ret _ st => st
  end.

(** Entering a function that takes no arguments. *)
Definition call (f : fundef) (st : state) : config := Run (fn_body f) Kstop st.

(** *** What a piece of source contains *)

(** Volatile accesses. *)
Fixpoint expr_volatile (e : expr) : bool :=
  match e with
  | Econst _ => false
  | Ecast _ e1 => expr_volatile e1
  | Ederef vol e1 => vol || expr_volatile e1
  | Ebinop _ e1 e2 => expr_volatile e1 || expr_volatile e2
  end.

(** Memory reads. *)
Fixpoint expr_reads (e : expr) : bool :=
  match e with
  | Econst _ => false
  | Ecast _ e1 => expr_reads e1
  | Ederef _ _ => true
  | Ebinop _ e1 e2 => expr_reads e1 || expr_reads e2
  end.

(** Arithmetic, which covers indexing and division. *)
Fixpoint expr_arith (e : expr) : bool :=
  match e with
  | Econst _ => false
  | Ecast _ e1 => expr_arith e1
  | Ederef _ e1 => expr_arith e1
  | Ebinop _ _ _ => true
  end.

Definition oexpr (p : expr -> bool) (o : option expr) : bool :=
  match o with
  | Some e => p e
  | None => false
  end.

(** Names of the functions a statement calls. *)
Fixpoint stmt_calls (s : stmt) : list string :=
  match s with
  | Sseq s1 s2 => stmt_calls s1 ++ stmt_calls s2
  | Swhile _ b => stmt_calls b
  | Scall f => [f]
  | Sskip | Sreturn _ | Sstore _ _ _ | Sasm _ _ => []
  end.

(** Volatile accesses and volatile assembly: the constructs a compiler must
    keep. *)
Fixpoint stmt_volatile (s : stmt) : bool :=
  match s with
  | Sskip | Scall _ => false
  | Sseq s1 s2 => stmt_volatile s1 || stmt_volatile s2
  | Swhile c b => expr_volatile c || stmt_volatile b
  | Sreturn e => oexpr expr_volatile e
  | Sstore vol a v => vol || expr_volatile a || expr_volatile v
  | Sasm vol _ => vol
  end.

(** Reads and writes of memory. *)
Fixpoint stmt_accesses (s : stmt) : bool :=
  match s with
  | Sskip | Scall _ | Sasm _ _ => false
  | Sseq s1 s2 => stmt_accesses s1 || stmt_accesses s2
  | Swhile c b => expr_reads c || stmt_accesses b
  | Sreturn e => oexpr expr_reads e
  | Sstore _ _ _ => true
  end.

(** Statements that can change the state: calls, stores, assembly and
    volatile reads. *)
Fixpoint stmt_effects (s : stmt) : bool :=
  match s with
  | Sskip => false
  | Sseq s1 s2 => stmt_effects s1 || stmt_effects s2
  | Swhile c b => expr_volatile c || stmt_effects b
  | Sreturn e => oexpr expr_volatile e
  | Scall _ | Sstore _ _ _ | Sasm _ _ => true
  end.

Fixpoint cont_effects (k : cont) : bool :=
  match k with
  | Kstop => false
  | Kseq s k' => stmt_effects s || cont_effects k'
  | Kwhile c b k' => expr_volatile c || stmt_effects b || cont_effects k'
  end.

Definition config_effects (c : config) : bool :=
  match c with
  | Run s k _ => stmt_effects s || cont_effects k
  | Ret _ _ => false
  end.

(** The marker that keeps a loop from being removed: a function attribute,
    or a volatile access or volatile assembly inside the body. *)
Definition no_optimize_marker (f : fundef) : bool :=
  negb (bool_decide (fn_attrs f = [])) || stmt_volatile (fn_body f).

(** The shallow configurations of [abort], as configurations of the
    evaluator running its body with the code [k] after it. *)
Definition abort_config (k : cont) (c : abort_pc * state) : config :=
  match c.1 with
  | AtTest => Run (Swhile (Econst 1) Sskip) k c.2
  | AtBody => Run Sskip (Kwhile (Econst 1) Sskip k) c.2
  | Returned => Run Sskip k c.2
  end.

(** A constant expression: literals under casts to a type that has values. *)
Fixpoint expr_const (e : expr) : bool :=
  match e with
  | Econst _ => true
  | Ecast Tvoid _ => false
  | Ecast _ e1 => expr_const e1
  | Ederef _ _ | Ebinop _ _ _ => false
  end.

(** A configuration with its memory replaced. *)
Definition with_mem (m : gmap Z Z) (c : config) : config :=
  match c with
  | Run s k st => Run s k (set_mem m st)
  | Ret v st => Ret v (set_mem m st)
  end.

Fixpoint cont_accesses (k : cont) : bool :=
  match k with
  | Kstop => false
  | Kseq s k' => stmt_accesses s || cont_accesses k'
  | Kwhile c b k' => expr_reads c || stmt_accesses b || cont_accesses k'
  end.

Definition config_accesses (c : config) : bool :=
  match c with
  | Run s k _ => stmt_accesses s || cont_accesses k
  | Ret _ _ => false
  end.

(** Values of a C type: an [int] in range, a pointer of the width of the
    target. *)
Definition val_has_type (v : val) (t : ctype) : bool :=
  match v, t with
  | Vint n, Tint => int_ok n
  | Vptr a, Tptr _ => (0 <=? a) && (a <? 2 ^ ptr_bits)
  | _, _ => false
  end.

Definition signature (f : fundef) : list ctype * ctype :=
  (map fst (fn_params f), fn_return f).

(** A machine with one mapped cell and one earlier event. *)
Definition state1 : state :=
  {| mem := {[ 536870912 := 7 ]}; trace := [Ev_call "enable_interrupts"] |}.

(** [n] calls of [__aeabi_read_tp] in sequence, each from the state the one
    before it leaves: the values returned, in order, and the last state. *)
Fixpoint read_tp_calls (n : nat) (s : state) : list val * state :=
  match n with
  | O => ([], s)
  | S n' =>
      let '(p, s1) := __aeabi_read_tp s in
      let '(ps, s2) := read_tp_calls n' s1 in
      (p :: ps, s2)
  end.

(** Steps of [abort] interleaved with steps of its environment (an interrupt
    handler, a debugger), which may replace the state but leaves the control
    point of [abort] where it is. *)
Definition abort_env_R (c c' : abort_pc * state) : Prop :=
  abort_R c c' ∨ c'.1 = c.1.

(** ** The loop of [abort] *)

Lemma abort_step_in_loop (pc : abort_pc) (s : state) :
  in_loop pc = true →
  ∃ pc', abort_step (pc, s) = Some (pc', s) ∧ in_loop pc' = true.
Proof.
  destruct pc; intros Hpc; simpl in *; try discriminate.
  - exists AtBody. split; reflexivity.
  - exists AtTest. split; reflexivity.
Qed.

Lemma abort_steps_in_loop (n : nat) (pc : abort_pc) (s : state) :
  in_loop pc = true →
  ∃ pc', abort_steps n (pc, s) = Some (pc', s) ∧ in_loop pc' = true.
Proof.
  revert pc. induction n as [|n IH]; intros pc Hpc.
  - exists pc. split; [reflexivity | assumption].
  - destruct (abort_step_in_loop pc s Hpc) as (pc1 & Hstep & Hpc1).
    cbn [abort_steps]. rewrite Hstep. apply IH, Hpc1.
Qed.

Lemma abort_reachable_in_loop (c c' : abort_pc * state) :
  rtc abort_R c c' → in_loop c.1 = true → in_loop c'.1 = true ∧ c'.2 = c.2.
Proof.
  induction 1 as [c | c c1 c2 Hstep _ IH]; intros Hc.
  - split; [assumption | reflexivity].
  - destruct c as [pc s].
    destruct (abort_step_in_loop pc s Hc) as (pc1 & Hstep1 & Hpc1).
    unfold abort_R in Hstep. rewrite Hstep1 in Hstep.
    injection Hstep as <-. destruct (IH Hpc1) as [Hin Hst].
    split; assumption.
Qed.

Lemma abort_run_in_loop (fuel : nat) (pc : abort_pc) (s : state) :
  in_loop pc = true → abort_run fuel (pc, s) = None.
Proof.
  revert pc. induction fuel as [|fuel IH]; intros pc Hpc.
  - destruct pc; try discriminate; reflexivity.
  - destruct (abort_step_in_loop pc s Hpc) as (pc1 & Hstep & Hpc1).
    destruct pc; try discriminate;
      cbn [abort_run fst]; rewrite Hstep; apply IH, Hpc1.
Qed.

(** The evaluator, run on the body of [abort] followed by any code [k],
    takes the steps of [abort_step]. *)
Lemma abort_simulation (k : cont) (c c' : abort_pc * state) :
  abort_R c c' → step (abort_config k c) = Next (abort_config k c').
Proof.
  destruct c as [[] s]; unfold abort_R; simpl; intros H;
    try discriminate; injection H as <-; reflexivity.
Qed.

Lemma abort_simulation_steps (k : cont) (n : nat) (c c' : abort_pc * state) :
  abort_steps n c = Some c' → steps n (abort_config k c) = Next (abort_config k c').
Proof.
  revert c. induction n as [|n IH]; intros c H.
  - injection H as <-. reflexivity.
  - cbn [abort_steps] in H. destruct (abort_step c) as [c1|] eqn:Hstep; [|discriminate].
    cbn [steps]. rewrite (abort_simulation k c c1 Hstep). apply IH, H.
Qed.

(** ** The evaluator *)

Ltac bool_split :=
  repeat match goal with
    | H : _ || _ = false |- _ => apply orb_false_elim in H; destruct H
    | H : _ && _ = true |- _ => apply andb_prop in H; destruct H
    end.

Ltac bool_close :=
  repeat first [assumption | reflexivity | apply orb_false_intro].

(** An expression without volatile accesses leaves the state as it is. *)
Lemma eval_expr_state (e : expr) (s s' : state) (v : val) :
  expr_volatile e = false → eval_expr e s = Some (v, s') → s' = s.
Proof.
  revert s s' v. induction e as [n | t e IH | vol e IH | op e1 IH1 e2 IH2];
    intros s s' v Hvol Hev; simpl in *.
  - congruence.
  - destruct (eval_expr e s) as [[v1 s1]|] eqn:He; [|discriminate].
    destruct (cast_val t v1); [|discriminate].
    injection Hev as _ <-. eauto.
  - bool_split. subst vol.
    destruct (eval_expr e s) as [[[n|a] s1]|] eqn:He; try discriminate.
    destruct (mem s1 !! a); [|discriminate].
    injection Hev as _ <-. eauto.
  - bool_split.
    destruct (eval_expr e1 s) as [[[n1|a1] s1]|] eqn:He1; try discriminate.
    destruct (eval_expr e2 s1) as [[[n2|a2] s2]|] eqn:He2; try discriminate.
    destruct (eval_binop op n1 n2); [|discriminate].
    injection Hev as _ <-.
    apply IH1 in He1; [|assumption]. apply IH2 in He2; [|assumption].
    congruence.
Qed.

(** A step of code without effects keeps the state, and what remains to run
    is again without effects. *)
Lemma step_state (c c' : config) :
  config_effects c = false → step c = Next c' →
  config_effects c' = false ∧ state_of c' = state_of c.
Proof.
  destruct c as [s k st | v st]; [|discriminate].
  destruct s as [ | s1 s2 | e b | [e|] | f | vol ea ev | vol text];
    simpl; intros Heff Hstep; bool_split; try discriminate.
  - destruct k as [ | s2 k | e b k]; injection Hstep as <-; simpl in *.
    + split; reflexivity.
    + split; [assumption | reflexivity].
    + bool_split. split; [|reflexivity].
      bool_close.
  - injection Hstep as <-. simpl. split; [|reflexivity].
    bool_close.
  - destruct (eval_expr e st) as [[v st']|] eqn:He; [|discriminate].
    apply eval_expr_state in He; [subst st' | assumption].
    destruct (is_true v); injection Hstep as <-; simpl; split;
      bool_close.
  - destruct (eval_expr e st) as [[v st']|] eqn:He; [|discriminate].
    apply eval_expr_state in He; [subst st' | assumption].
    injection Hstep as <-. split; reflexivity.
  - injection Hstep as <-. split; reflexivity.
Qed.

Lemma steps_state (n : nat) (c c' : config) :
  config_effects c = false → steps n c = Next c' →
  config_effects c' = false ∧ state_of c' = state_of c.
Proof.
  revert c. induction n as [|n IH]; intros c Heff Hsteps.
  - injection Hsteps as <-. split; [assumption | reflexivity].
  - cbn [steps] in Hsteps. destruct (step c) as [c1| |] eqn:Hstep; try discriminate.
    destruct (step_state c c1 Heff Hstep) as [Heff1 Hst1].
    destruct (IH c1 Heff1 Hsteps) as [Heff' Hst']. split; congruence.
Qed.

(** A constant expression has a value, the same in every state, and leaves
    the state as it is: its evaluation cannot fault. *)
Lemma eval_expr_const (e : expr) :
  expr_const e = true → ∃ v, ∀ s, eval_expr e s = Some (v, s).
Proof.
  induction e as [n | t e IH | vol e IH | op e1 IH1 e2 IH2];
    simpl; intros Hc; try discriminate.
  - exists (Vint n). reflexivity.
  - destruct t as [ | | t']; try discriminate;
      destruct (IH Hc) as [v Hv]; destruct v as [m|a].
    + exists (Vint m). intros s. rewrite Hv. reflexivity.
    + exists (Vint (int_wrap a)). intros s. rewrite Hv. reflexivity.
    + exists (int_to_ptr m). intros s. rewrite Hv. reflexivity.
    + exists (Vptr a). intros s. rewrite Hv. reflexivity.
Qed.

Lemma expr_const_plain (e : expr) :
  expr_const e = true →
  expr_reads e = false ∧ expr_arith e = false ∧ expr_volatile e = false.
Proof.
  induction e as [n | t e IH | vol e IH | op e1 IH1 e2 IH2];
    simpl; intros Hc; try discriminate.
  - repeat split.
  - destruct t; try discriminate; apply IH, Hc.
Qed.

(** An expression that reads no memory evaluates the same way whatever the
    memory holds. *)
Lemma eval_expr_mem (m : gmap Z Z) (e : expr) (s : state) :
  expr_reads e = false →
  eval_expr e (set_mem m s) =
    match eval_expr e s with
    | Some (v, s') => Some (v, set_mem m s')
    | None => None
    end.
Proof.
  revert s. induction e as [n | t e IH | vol e IH | op e1 IH1 e2 IH2];
    intros s Hr; simpl in *; try discriminate.
  - reflexivity.
  - rewrite (IH s Hr). destruct (eval_expr e s) as [[v s1]|]; [|reflexivity].
    destruct (cast_val t v); reflexivity.
  - bool_split. rewrite (IH1 s) by assumption.
    destruct (eval_expr e1 s) as [[[n1|a1] s1]|]; try reflexivity.
    rewrite (IH2 s1) by assumption.
    destruct (eval_expr e2 s1) as [[[n2|a2] s2]|]; try reflexivity.
    destruct (eval_binop op n1 n2); reflexivity.
Qed.

(** Code that does not access memory takes the same steps whatever the
    memory holds, and never changes it. *)
Lemma step_mem (m : gmap Z Z) (c : config) :
  config_accesses c = false →
  step (with_mem m c) =
    match step c with
    | Next c' => Next (with_mem m c')
    | o => o
    end.
Proof.
  destruct c as [s k st | v st]; [|reflexivity].
  destruct s as [ | s1 s2 | e b | [e|] | f | vol ea ev | vol text];
    simpl; intros Hacc; bool_split; try discriminate; try reflexivity.
  - destruct k; reflexivity.
  - rewrite eval_expr_mem by assumption.
    destruct (eval_expr e st) as [[v st']|]; [|reflexivity].
    destruct (is_true v); reflexivity.
  - rewrite eval_expr_mem by assumption.
    destruct (eval_expr e st) as [[v st']|]; reflexivity.
  - destruct vol; reflexivity.
Qed.

Lemma eval_expr_mem_same (e : expr) (s s' : state) (v : val) :
  expr_reads e = false → eval_expr e s = Some (v, s') → mem s' = mem s.
Proof.
  revert s s' v. induction e as [n | t e IH | vol e IH | op e1 IH1 e2 IH2];
    intros s s' v Hr Hev; simpl in *; try discriminate.
  - congruence.
  - destruct (eval_expr e s) as [[v1 s1]|] eqn:He; [|discriminate].
    destruct (cast_val t v1); [|discriminate].
    injection Hev as _ <-. eauto.
  - bool_split.
    destruct (eval_expr e1 s) as [[[n1|a1] s1]|] eqn:He1; try discriminate.
    destruct (eval_expr e2 s1) as [[[n2|a2] s2]|] eqn:He2; try discriminate.
    destruct (eval_binop op n1 n2); [|discriminate].
    injection Hev as _ <-.
    apply IH1 in He1; [|assumption]. apply IH2 in He2; [|assumption].
    congruence.
Qed.

Lemma step_mem_same (c c' : config) :
  config_accesses c = false → step c = Next c' →
  config_accesses c' = false ∧ mem (state_of c') = mem (state_of c).
Proof.
  destruct c as [s k st | v st]; [|discriminate].
  destruct s as [ | s1 s2 | e b | [e|] | f | vol ea ev | vol text];
    simpl; intros Hacc Hstep; bool_split; try discriminate.
  - destruct k as [ | s2 k | e b k]; injection Hstep as <-; simpl in *.
    + split; reflexivity.
    + split; [assumption | reflexivity].
    + bool_split. split; [|reflexivity].
      bool_close.
  - injection Hstep as <-. simpl. split; [|reflexivity].
    bool_close.
  - destruct (eval_expr e st) as [[v st']|] eqn:He; [|discriminate].
    apply eval_expr_mem_same in He; [|assumption].
    destruct (is_true v); injection Hstep as <-; simpl; split;
      bool_close.
  - destruct (eval_expr e st) as [[v st']|] eqn:He; [|discriminate].
    apply eval_expr_mem_same in He; [|assumption].
    injection Hstep as <-. split; [reflexivity | assumption].
  - injection Hstep as <-. split; reflexivity.
  - injection Hstep as <-. split; [assumption | reflexivity].
  - injection Hstep as <-. split; [assumption | destruct vol; reflexivity].
Qed.

Lemma steps_mem_same (n : nat) (c c' : config) :
  config_accesses c = false → steps n c = Next c' →
  config_accesses c' = false ∧ mem (state_of c') = mem (state_of c).
Proof.
  revert c. induction n as [|n IH]; intros c Hacc Hsteps.
  - injection Hsteps as <-. split; [assumption | reflexivity].
  - cbn [steps] in Hsteps. destruct (step c) as [c1| |] eqn:Hstep; try discriminate.
    destruct (step_mem_same c c1 Hacc Hstep) as [Hacc1 Hm1].
    destruct (IH c1 Hacc1 Hsteps) as [Hacc' Hm']. split; congruence.
Qed.

Lemma steps_mem (m : gmap Z Z) (n : nat) (c : config) :
  config_accesses c = false →
  steps n (with_mem m c) =
    match steps n c with
    | Next c' => Next (with_mem m c')
    | o => o
    end.
Proof.
  revert c. induction n as [|n IH]; intros c Hacc; [reflexivity|].
  cbn [steps]. rewrite (step_mem m c Hacc).
  destruct (step c) as [c1| |] eqn:Hstep; try reflexivity.
  apply IH. exact (proj1 (step_mem_same c c1 Hacc Hstep)).
Qed.

(** ** The two functions of the unit *)

Lemma stubs_functions (f : fundef) :
  f ∈ tu_functions stubs_c → f = abort_def ∨ f = read_tp_def.
Proof.
  simpl. intros Hf. apply elem_of_cons in Hf as [-> | Hf]; [left; reflexivity|].
  apply elem_of_cons in Hf as [-> | Hf]; [right; reflexivity|].
  apply elem_of_nil in Hf. contradiction.
Qed.

Lemma stubs_no_effects (f : fundef) (s : state) :
  f ∈ tu_functions stubs_c → config_effects (call f s) = false.
Proof. intros Hf. destruct (stubs_functions f Hf) as [-> | ->]; reflexivity. Qed.

Lemma stubs_no_accesses (f : fundef) (s : state) :
  f ∈ tu_functions stubs_c → config_accesses (call f s) = false.
Proof. intros Hf. destruct (stubs_functions f Hf) as [-> | ->]; reflexivity. Qed.

(** The evaluator, run on the body of [__aeabi_read_tp], returns what the
    shallow function returns, in one step. *)
Lemma read_tp_simulation (s : state) :
  step (call read_tp_def s) =
    Next (Ret (Some (__aeabi_read_tp s).1) (__aeabi_read_tp s).2).
Proof. reflexivity. Qed.

Lemma abort_call_steps (n : nat) (k : cont) (s : state) :
  ∃ pc, in_loop pc = true
        ∧ abort_steps n (abort_entry s) = Some (pc, s)
        ∧ steps n (Run (fn_body abort_def) k s) = Next (abort_config k (pc, s)).
Proof.
  destruct (abort_steps_in_loop n AtTest s eq_refl) as (pc & Hsteps & Hpc).
  exists pc. split; [assumption|]. split; [assumption|].
  exact (abort_simulation_steps k n (abort_entry s) (pc, s) Hsteps).
Qed.

(** The control point [abort] is at after [n] steps does not depend on the
    state. *)
Lemma abort_steps_control (n : nat) (pc : abort_pc) (s1 s2 : state) :
  fst <$> abort_steps n (pc, s1) = fst <$> abort_steps n (pc, s2).
Proof.
  revert pc. induction n as [|n IH]; intros pc; [reflexivity|].
  destruct pc; cbn [abort_steps abort_step]; simpl; auto.
Qed.

(** ** Properties of the stubs *)

(** C1. [abort] never returns to its caller and control gets nowhere else:
    every configuration reachable from its entry is still inside the loop
    and has a next step; no bound on the number of steps lets the call
    return; and, with any code [k] placed after the loop, the evaluator is
    after every number of steps still in the loop, with [k] not started. *)
Theorem abort_never_returns (s : state) (c : abort_pc * state) :
  rtc abort_R (abort_entry s) c →
  in_loop c.1 = true
  ∧ red abort_R c
  ∧ (∀ fuel, abort fuel s = None)
  ∧ (∀ k n, ∃ pc, in_loop pc = true
       ∧ steps n (Run (fn_body abort_def) k s) = Next (abort_config k (pc, s))).
Proof.
  intros Hreach.
  destruct (abort_reachable_in_loop _ _ Hreach eq_refl) as [Hin Hst].
  split; [assumption|]. split.
  - destruct c as [pc s']. destruct (abort_step_in_loop pc s' Hin) as (pc' & Hstep & _).
    exists (pc', s'). exact Hstep.
  - split.
    + intros fuel. apply abort_run_in_loop. reflexivity.
    + intros k n. destruct (abort_call_steps n k s) as (pc & Hpc & _ & Hsteps).
      exists pc. split; assumption.
Qed.

Lemma abort_never_returns_witness :
  rtc abort_R (abort_entry state1) (AtBody, state1)
  ∧ (in_loop (AtBody, state1).1 = true
     ∧ red abort_R (AtBody, state1)
     ∧ (∀ fuel, abort fuel state1 = None)
     ∧ (∀ k n, ∃ pc, in_loop pc = true
          ∧ steps n (Run (fn_body abort_def) k state1)
            = Next (abort_config k (pc, state1)))).
Proof.
  assert (Hreach : rtc abort_R (abort_entry state1) (AtBody, state1)).
  { apply rtc_once. reflexivity. }
  split; [exact Hreach|].
  exact (abort_never_returns state1 (AtBody, state1) Hreach).
Defined.

(** C2. From every state [__aeabi_read_tp] returns the null pointer, which
    is the pointer zero; two calls in sequence both return it. *)
Theorem read_tp_returns_null (s : state) :
  (__aeabi_read_tp s).1 = NULL
  ∧ NULL = Vptr 0
  ∧ read_tp_twice s = (NULL, NULL, s).
Proof. repeat split. Qed.

(** C3. Neither function has a side effect: [__aeabi_read_tp] leaves the
    state as it found it, and so does every step [abort] takes. *)
Theorem stubs_no_side_effects (s : state) (c c' : abort_pc * state) :
  abort_R c c' →
  (__aeabi_read_tp s).2 = s ∧ c'.2 = c.2.
Proof.
  intros Hstep. split; [reflexivity|].
  destruct c as [pc st]. unfold abort_R in Hstep.
  destruct pc; simpl in Hstep; try discriminate; injection Hstep as <-; reflexivity.
Qed.

Lemma stubs_no_side_effects_witness :
  abort_R (AtTest, state1) (AtBody, state1)
  ∧ ((__aeabi_read_tp state1).2 = state1 ∧ (AtBody, state1).2 = (AtTest, state1).2).
Proof.
  assert (Hstep : abort_R (AtTest, state1) (AtBody, state1)) by reflexivity.
  split; [exact Hstep|].
  exact (stubs_no_side_effects state1 (AtTest, state1) (AtBody, state1) Hstep).
Defined.

(** C4. [__aeabi_read_tp] is deterministic and stateless: runs from any two
    states return the same value, and a call from the state an earlier call
    left returns what that call returned.  [abort] has one behaviour as
    well: the control point it is at after [n] steps, and whether it has
    returned within [n] steps, are the same from any two states. *)
Theorem read_tp_stateless (s1 s2 : state) (n : nat) :
  (__aeabi_read_tp s1).1 = (__aeabi_read_tp s2).1
  ∧ __aeabi_read_tp (__aeabi_read_tp s1).2 = __aeabi_read_tp s1
  ∧ fst <$> abort_steps n (abort_entry s1) = fst <$> abort_steps n (abort_entry s2)
  ∧ abort n s1 = abort n s2.
Proof.
  split; [reflexivity|]. split; [reflexivity|]. split.
  - apply abort_steps_control.
  - unfold abort, abort_entry.
    rewrite !abort_run_in_loop by reflexivity. reflexivity.
Qed.

(** C5, as stated: the loop of [abort] carries a volatile or no-optimize
    marker.  It does not: the function has no attribute, and its body
    contains neither a volatile access nor volatile assembly. *)
Lemma abort_loop_marker_absent : no_optimize_marker abort_def ≠ true.
Proof. discriminate. Qed.

(** C5, amended.  The loop of [abort] is the plain statement [while(1);],
    with no volatile or no-optimize marker: its body is the empty statement
    and its controlling expression is a constant, which evaluates in every
    state, without changing it, to a value that is not zero; that alone
    keeps the call from returning within any number of steps. *)
Theorem abort_loop_plain (s : state) :
  no_optimize_marker abort_def = false
  ∧ (∃ e, fn_body abort_def = Swhile e Sskip
       ∧ expr_const e = true
       ∧ ∃ v, eval_expr e s = Some (v, s) ∧ is_true v = true)
  ∧ (∀ fuel, abort fuel s = None).
Proof.
  split; [reflexivity|]. split.
  - exists (Econst 1). split; [reflexivity|]. split; [reflexivity|].
    exists (Vint 1). split; reflexivity.
  - intros fuel. apply abort_run_in_loop. reflexivity.
Qed.

(** C6. [abort] is a silent sink: its body calls no function (so it neither
    retries nor logs nor signals) and contains nothing that has an effect;
    after any number of steps from any state the evaluator is still running
    it, the trace of observable events is the one it was entered with, and
    no value has been returned. *)
Theorem abort_silent (s : state) (n : nat) :
  stmt_calls (fn_body abort_def) = []
  ∧ stmt_effects (fn_body abort_def) = false
  ∧ ∃ c, steps n (call abort_def s) = Next c
       ∧ trace (state_of c) = trace s
       ∧ ∀ v st, c ≠ Ret v st.
Proof.
  split; [reflexivity|]. split; [reflexivity|].
  destruct (abort_call_steps n Kstop s) as (pc & Hpc & _ & Hsteps).
  exists (abort_config Kstop (pc, s)). split; [exact Hsteps|].
  destruct pc; try discriminate; simpl; split; try reflexivity;
    intros v st; discriminate.
Qed.

(** C7. The unit exports two symbols and no other: [abort], which takes no
    argument and returns nothing, and [__aeabi_read_tp], which takes no
    argument and returns a pointer; the value returned is the null pointer,
    a value of the declared return type, of the width of a pointer. *)
Theorem stubs_interface (s : state) :
  exported stubs_c = [abort_def; read_tp_def]
  ∧ fn_name <$> exported stubs_c = ["abort"; "__aeabi_read_tp"]
  ∧ signature abort_def = ([], Tvoid)
  ∧ signature read_tp_def = ([], Tptr Tvoid)
  ∧ (__aeabi_read_tp s).1 = NULL
  ∧ val_has_type (__aeabi_read_tp s).1 (fn_return read_tp_def) = true.
Proof. repeat split. Qed.

(** C8. Neither function implements or calls the interrupt helpers: no
    function of the unit bears one of their names, no body contains a call,
    and along every execution of either function the trace of events stays
    the one at entry, so that no external call occurs. *)
Theorem stubs_call_nothing (f : fundef) (s : state) (n : nat) (c : config) :
  f ∈ tu_functions stubs_c →
  steps n (call f s) = Next c →
  (fn_name f ∉ interrupt_helpers)
  ∧ stmt_calls (fn_body f) = []
  ∧ trace (state_of c) = trace s.
Proof.
  intros Hf Hsteps. split; [|split].
  - unfold interrupt_helpers. intros Hin.
    destruct (stubs_functions f Hf) as [-> | ->];
      repeat (apply elem_of_cons in Hin as [Hin | Hin]; [discriminate|]);
      apply elem_of_nil in Hin; exact Hin.
  - destruct (stubs_functions f Hf) as [-> | ->]; reflexivity.
  - destruct (steps_state n _ _ (stubs_no_effects f s Hf) Hsteps) as [_ Hst].
    rewrite Hst. reflexivity.
Qed.

Lemma stubs_call_nothing_witness :
  read_tp_def ∈ tu_functions stubs_c
  ∧ steps 1 (call read_tp_def state1) = Next (Ret (Some NULL) state1)
  ∧ ((fn_name read_tp_def ∉ interrupt_helpers)
     ∧ stmt_calls (fn_body read_tp_def) = []
     ∧ trace (state_of (Ret (Some NULL) state1)) = trace state1).
Proof.
  assert (Hf : read_tp_def ∈ tu_functions stubs_c).
  { apply elem_of_cons. right. apply elem_of_cons. left. reflexivity. }
  assert (Hsteps : steps 1 (call read_tp_def state1) = Next (Ret (Some NULL) state1))
    by reflexivity.
  split; [exact Hf|]. split; [exact Hsteps|].
  exact (stubs_call_nothing read_tp_def state1 1 (Ret (Some NULL) state1) Hf Hsteps).
Defined.

(** C9. [__aeabi_read_tp] is total and cannot fault: the expression it
    returns is a constant, with no memory read and no arithmetic, and has
    one value in every state; from every state the evaluator returns the
    null pointer in one step and is then final, no number of steps ends in
    a fault, and the shallow function has the same result. *)
Theorem read_tp_total (s : state) :
  (∃ e v, fn_body read_tp_def = Sreturn (Some e)
     ∧ expr_const e = true ∧ expr_reads e = false ∧ expr_arith e = false
     ∧ ∀ s', eval_expr e s' = Some (v, s'))
  ∧ step (call read_tp_def s) = Next (Ret (Some NULL) s)
  ∧ step (Ret (Some NULL) s) = Final
  ∧ (∀ n, steps n (call read_tp_def s) ≠ Fault)
  ∧ __aeabi_read_tp s = (NULL, s).
Proof.
  split.
  - assert (Hc : expr_const (Ecast (Tptr Tvoid) (Econst 0)) = true) by reflexivity.
    destruct (expr_const_plain _ Hc) as (Hreads & Harith & _).
    destruct (eval_expr_const _ Hc) as [v Hv].
    exists (Ecast (Tptr Tvoid) (Econst 0)), v. repeat split; assumption.
  - split; [exact (read_tp_simulation s)|].
    repeat split. intros [|[|n]]; discriminate.
Qed.

(** C10. The unit touches no memory.  It declares no global variable and no
    body contains a memory access; for either function, entered with memory
    [m0], every configuration reached has memory [m0] and so has the
    configuration after one more step; with any other memory [m'] at entry
    the same steps are taken, so that nothing is read either.  The shallow
    [__aeabi_read_tp] keeps the memory as well. *)
Theorem stubs_memory_invariant
    (f : fundef) (s : state) (m0 m' : gmap Z Z) (n : nat) (c c' : config) :
  f ∈ tu_functions stubs_c →
  mem s = m0 →
  steps n (call f s) = Next c →
  step c = Next c' →
  tu_globals stubs_c = []
  ∧ stmt_accesses (fn_body f) = false
  ∧ mem (state_of c) = m0
  ∧ mem (state_of c') = m0
  ∧ steps n (call f (set_mem m' s)) = Next (with_mem m' c)
  ∧ mem (__aeabi_read_tp s).2 = m0.
Proof.
  intros Hf Hm Hsteps Hstep.
  pose proof (stubs_no_accesses f s Hf) as Hacc.
  destruct (steps_mem_same n _ _ Hacc Hsteps) as [Hacc1 Hm1].
  destruct (step_mem_same _ _ Hacc1 Hstep) as [_ Hm2].
  split; [reflexivity|]. split.
  { destruct (stubs_functions f Hf) as [-> | ->]; reflexivity. }
  split; [simpl in Hm1; congruence|].
  split; [simpl in Hm1; congruence|].
  split; [|exact Hm].
  change (call f (set_mem m' s)) with (with_mem m' (call f s)).
  rewrite (steps_mem m' n _ Hacc), Hsteps. reflexivity.
Qed.

Lemma stubs_memory_invariant_witness :
  abort_def ∈ tu_functions stubs_c
  ∧ mem state1 = {[ 536870912 := 7 ]}
  ∧ steps 2 (call abort_def state1) = Next (Run (Swhile (Econst 1) Sskip) Kstop state1)
  ∧ step (Run (Swhile (Econst 1) Sskip) Kstop state1)
    = Next (Run Sskip (Kwhile (Econst 1) Sskip Kstop) state1)
  ∧ (tu_globals stubs_c = []
     ∧ stmt_accesses (fn_body abort_def) = false
     ∧ mem (state_of (Run (Swhile (Econst 1) Sskip) Kstop state1)) = {[ 536870912 := 7 ]}
     ∧ mem (state_of (Run Sskip (Kwhile (Econst 1) Sskip Kstop) state1))
       = {[ 536870912 := 7 ]}
     ∧ steps 2 (call abort_def (set_mem ∅ state1))
       = Next (with_mem ∅ (Run (Swhile (Econst 1) Sskip) Kstop state1))
     ∧ mem (__aeabi_read_tp state1).2 = {[ 536870912 := 7 ]}).
Proof.
  assert (Hf : abort_def ∈ tu_functions stubs_c).
  { apply elem_of_cons. left. reflexivity. }
  assert (Hm : mem state1 = {[ 536870912 := 7 ]}) by reflexivity.
  assert (Hsteps : steps 2 (call abort_def state1)
                   = Next (Run (Swhile (Econst 1) Sskip) Kstop state1)) by reflexivity.
  assert (Hstep : step (Run (Swhile (Econst 1) Sskip) Kstop state1)
                  = Next (Run Sskip (Kwhile (Econst 1) Sskip Kstop) state1)) by reflexivity.
  split; [exact Hf|]. split; [exact Hm|]. split; [exact Hsteps|]. split; [exact Hstep|].
  exact (stubs_memory_invariant abort_def state1 _ ∅ 2 _ _ Hf Hm Hsteps Hstep).
Defined.

(** ** Further properties *)



Lemma abort_env_in_loop (c c' : abort_pc * state) :
  rtc abort_env_R c c' → in_loop c.1 = true → in_loop c'.1 = true.
Proof.
  induction 1 as [c | c c1 c2 Hstep _ IH]; intros Hc; [assumption|].
  apply IH. destruct Hstep as [Hstep | Henv].
  - destruct c as [pc st].
    destruct (abort_step_in_loop pc st Hc) as (pc1 & Hstep1 & Hpc1).
    unfold abort_R in Hstep. rewrite Hstep1 in Hstep.
    injection Hstep as <-. exact Hpc1.
  - rewrite Henv. exact Hc.
Qed.

(** X2. Nothing the environment does to the state releases [abort]: when
    its steps are interleaved with arbitrary changes of the state, every
    configuration reached is still inside the loop, can take a step, and
    does not return within any number of further steps. *)
Theorem abort_env_never_returns (s : state) (c : abort_pc * state) :
  rtc abort_env_R (abort_entry s) c →
  in_loop c.1 = true
  ∧ red abort_R c
  ∧ ∀ fuel, abort_run fuel c = None.
Proof.
  intros Hreach.
  pose proof (abort_env_in_loop _ _ Hreach eq_refl) as Hin.
  clear Hreach. destruct c as [pc st]. simpl in Hin.
  split; [assumption|]. split.
  - destruct (abort_step_in_loop pc st Hin) as (pc' & Hstep & _).
    exists (pc', st). exact Hstep.
  - intros fuel. apply abort_run_in_loop, Hin.
Qed.

Lemma abort_env_never_returns_witness :
  rtc abort_env_R (abort_entry state1) (AtBody, set_mem ∅ state1)
  ∧ (in_loop (AtBody, set_mem ∅ state1).1 = true
     ∧ red abort_R (AtBody, set_mem ∅ state1)
     ∧ ∀ fuel, abort_run fuel (AtBody, set_mem ∅ state1) = None).
Proof.
  assert (Hreach : rtc abort_env_R (abort_entry state1) (AtBody, set_mem ∅ state1)).
  { apply rtc_l with (AtBody, state1); [left; reflexivity|].
    apply rtc_once. right. reflexivity. }
  split; [exact Hreach|].
  exact (abort_env_never_returns state1 (AtBody, set_mem ∅ state1) Hreach).
Defined.

(** X3. Any number of calls of [__aeabi_read_tp] in sequence return the
    null pointer every time and leave the state as it was before the
    first. *)
Theorem read_tp_calls_null (n : nat) (s : state) :
  read_tp_calls n s = (replicate n NULL, s).
Proof.
  induction n as [|n IH]; [reflexivity|].
  cbn [read_tp_calls]. unfold __aeabi_read_tp at 1. rewrite IH. reflexivity.
Qed.
